(** * Arranged probability (Project Euler 100): the search of [main.py]

    [main n_min] walks the convergents [r/s] of the continued fraction of
    sqrt 2, turns each into the two legs [a], [b] of a Pythagorean triple
    and stops at the first one whose greater leg exceeds [n_min].  The
    number of blue discs is then read off with a floating-point square
    root.  The integers are Python's unbounded [int] (here [Z]); the
    floating-point part is IEEE binary64, modelled with the executable
    specification [SpecFloat] of the Standard Library. *)

From Stdlib Require Import ZArith Lia List Bool Ascii String DecimalString.
From Stdlib Require Import SpecFloat.
Import ListNotations.

Local Open Scope Z_scope.

(** ** The fragment of Python that [main] uses *)

Module Py.

(** Values a caller can hand to [main]; [type v == int] holds for
    [VInt] only (a [bool] has type [bool], not [int]). *)
Inductive value : Type :=
| VInt (z : Z)
| VBool (b : bool)
| VFloat (f : spec_float)
| VStr (s : string)
| VNone.

Inductive exc : Type :=
| AssertionError
| OverflowError
| ValueError
| ZeroDivisionError
| EOFError.

(** A call either returns or raises. *)
Inductive outcome (A : Type) : Type :=
| Return (a : A)
| Raise (e : exc).
Arguments Return {A} a.
Arguments Raise {A} e.

Definition bind {A B : Type} (m : outcome A) (k : A -> outcome B) : outcome B :=
  match m with
  | Return a => k a
  | Raise e => Raise e
  end.

(** binary64 *)
Definition prec : Z := 53.
Definition emax : Z := 1024.

(** Least magnitude that rounds (to nearest, ties to even) up to
    [2^1024], one half unit in the last place under it. *)
Definition float_overflow : Z := 2 ^ 1024 - 2 ^ 970.

(** [int -> float], as done for an [int] argument of a float operation:
    correctly rounded, [OverflowError] when the rounded value is out of
    range ("int too large to convert to float"). *)
Definition float_of_int (z : Z) : outcome spec_float :=
  if float_overflow <=? Z.abs z then Raise OverflowError
  else Return (binary_normalize prec emax z 0 false).

(** [math.sqrt] on a float: "math domain error" below zero. *)
Definition math_sqrt_float (f : spec_float) : outcome spec_float :=
  match f with
  | S754_finite true _ _ => Raise ValueError
  | S754_infinity true => Raise ValueError
  | _ => Return (SFsqrt prec emax f)
  end.

(** [math.sqrt] applied to an [int]. *)
Definition math_sqrt (z : Z) : outcome spec_float :=
  bind (float_of_int z) math_sqrt_float.

(** [i + f] with [i] an [int] and [f] a [float]. *)
Definition int_add_float (i : Z) (f : spec_float) : outcome spec_float :=
  bind (float_of_int i) (fun fi => Return (SFadd prec emax fi f)).

(** [f / i] with [f] a [float] and [i] an [int]. *)
Definition float_truediv_int (f : spec_float) (i : Z) : outcome spec_float :=
  bind (float_of_int i) (fun fi =>
    match fi with
    | S754_zero _ => Raise ZeroDivisionError
    | _ => Return (SFdiv prec emax f fi)
    end).

(** [int(f)]: truncation towards zero. *)
Definition int_of_float (f : spec_float) : outcome Z :=
  match f with
  | S754_zero _ => Return 0
  | S754_finite sg m e =>
      let mag := if 0 <=? e then Zpos m * 2 ^ e else Zpos m / 2 ^ (- e) in
      Return (if sg then - mag else mag)
  | S754_infinity _ => Raise OverflowError
  | S754_nan => Raise ValueError
  end.

End Py.

Import Py.

Notation "x <- m ;; k" := (bind m (fun x => k))
  (at level 61, m at next level, right associativity).

(** ** [main] *)

(** The legs [a], [b] built from the convergent [r/s]. *)
Definition legs (r s : Z) : Z * Z :=
  let p := r + s in
  let q := s in
  ((p - q) * (p + q), 2 * p * q).

(** [int((1 + sqrt(1 + 2*a*b)) / 2)] *)
Definition blue_count (a b : Z) : outcome Z :=
  root <- math_sqrt (1 + 2 * a * b) ;;
  num <- int_add_float 1 root ;;
  half <- float_truediv_int num 2 ;;
  int_of_float half.

(** The [while True] loop; [None] only when [fuel] iterations did not
    reach the [return]. *)
Fixpoint main_loop (fuel : nat) (n_min r s : Z) : option (outcome (Z * Z)) :=
  match fuel with
  | O => None
  | S fuel' =>
      let p := r + s in
      let q := s in
      let a := (p - q) * (p + q) in
      let b := 2 * p * q in
      let n := Z.max a b in
      if n >? n_min then
        Some (x <- blue_count a b ;; Return (n, x))
      else
        main_loop fuel' n_min (r + 2 * s) (r + s)
  end.

(** Iterations granted to a call: the candidate at least doubles at every
    step ([candidate_double]), so this is never used up
    ([main_loop_terminates]). *)
Definition main_fuel (n_min : Z) : nat := S (Z.to_nat (Z.log2 n_min)).

Definition main (v : value) : option (outcome (Z * Z)) :=
  match v with
  | VInt n_min =>
      if n_min >? 0 then main_loop (main_fuel n_min) n_min 1 1
      else Some (Raise AssertionError)
  | _ => Some (Raise AssertionError)
  end.

(** ** The states the loop goes through *)

(** One turn of the loop body that does not return:
    [r, s = r + 2*s, r + s]. *)
Definition next (st : Z * Z) : Z * Z :=
  let '(r, s) := st in (r + 2 * s, r + s).

(** The pair [(r, s)] at the start of iteration [i], counted from 0. *)
Fixpoint convergent (i : nat) : Z * Z :=
  match i with
  | O => (1, 1)
  | S j => next (convergent j)
  end.

(** [n = max(a, b)] for a given [(r, s)]. *)
Definition total_of (st : Z * Z) : Z :=
  let '(a, b) := legs (fst st) (snd st) in Z.max a b.

(** What the [return] branch yields in state [(r, s)]. *)
Definition result_of (st : Z * Z) : outcome (Z * Z) :=
  let '(a, b) := legs (fst st) (snd st) in
  x <- blue_count a b ;; Return (Z.max a b, x).

Definition candidate (i : nat) : Z := total_of (convergent i).

(** Iteration [i] is the one that returns for the bound [n_min]. *)
Definition first_exit (n_min : Z) (i : nat) : Prop :=
  n_min < candidate i /\ forall j, (j < i)%nat -> candidate j <= n_min.

(** States reachable from the seed [(1, 1)] by the update. *)
Inductive reachable : Z -> Z -> Prop :=
| reach_seed : reachable 1 1
| reach_step r s : reachable r s -> reachable (r + 2 * s) (r + s).

Definition positive_int (v : value) : Prop :=
  exists z, v = VInt z /\ 0 < z.

(** ** What the specification asks of a result *)

(** [P(BB) = 1/2], cleared of denominators. *)
Definition valid_arrangement (total blue : Z) : Prop :=
  2 * blue * (blue - 1) = total * (total - 1).

Definition valid_arrangementb (total blue : Z) : bool :=
  2 * blue * (blue - 1) =? total * (total - 1).

(** [1 + 2*total*(total-1)] is a perfect square: some blue count fits. *)
Definition square_radicand (total : Z) : Prop :=
  exists z, z * z = 1 + 2 * total * (total - 1).

(** The hypotenuse [p^2 + q^2] of the triple of a state. *)
Definition hypotenuse (st : Z * Z) : Z :=
  let p := fst st + snd st in
  let q := snd st in
  p * p + q * q.

(** ** Where the floating-point extraction changes behaviour *)

(** From this iteration on the radicand [1 + 2*a*b] no longer converts
    to a float. *)
Definition overflow_from : nat := 201.

(** From this iteration on the square root is past [2^53] and the float
    result is no longer the exact root. *)
Definition inexact_from : nat := 20.

Definition blue_in_range (o : outcome (Z * Z)) : bool :=
  match o with
  | Return (t, x) => (0 <? x) && (x <? t)
  | Raise _ => false
  end.

Definition exact_result (o : outcome (Z * Z)) : bool :=
  match o with
  | Return (t, x) => valid_arrangementb t x
  | Raise _ => false
  end.

(** ** Arithmetic of the recurrence *)

Lemma convergent_pos i : 1 <= fst (convergent i) /\ 1 <= snd (convergent i).
Proof.
  induction i as [|i [Hr Hs]]; cbn [convergent]; [cbn; lia|].
  destruct (convergent i) as [r s]; cbn [next fst snd] in *; lia.
Qed.

Lemma reachable_convergent i :
  reachable (fst (convergent i)) (snd (convergent i)).
Proof.
  induction i as [|i IH]; cbn [convergent]; [constructor|].
  destruct (convergent i) as [r s]; cbn [next fst snd] in *. now constructor.
Qed.

Lemma reachable_inv r s :
  reachable r s -> exists i, convergent i = (r, s).
Proof.
  induction 1 as [|r s _ [i Hi]].
  - now exists O.
  - exists (S i). cbn [convergent]. now rewrite Hi.
Qed.

Lemma reachable_pell r s :
  reachable r s -> r * r - 2 * (s * s) = 1 \/ r * r - 2 * (s * s) = -1.
Proof.
  induction 1 as [|r s _ [IH|IH]].
  - right; reflexivity.
  - right. lia.
  - left. lia.
Qed.

Lemma reachable_pos r s : reachable r s -> 1 <= r /\ 1 <= s.
Proof. induction 1; lia. Qed.

Lemma legs_eq r s :
  legs r s = (r * r + 2 * r * s, 2 * r * s + 2 * (s * s)).
Proof. unfold legs. f_equal; ring. Qed.

Lemma total_of_eq r s :
  total_of (r, s) = 2 * r * s + Z.max (r * r) (2 * (s * s)).
Proof. unfold total_of; simpl fst; simpl snd. rewrite legs_eq. lia. Qed.

Lemma total_of_next_double r s :
  1 <= r -> 1 <= s -> 2 * total_of (r, s) <= total_of (next (r, s)).
Proof.
  intros Hr Hs. unfold next. rewrite !total_of_eq. nia.
Qed.

Lemma total_of_ge_4 r s : 1 <= r -> 1 <= s -> 4 <= total_of (r, s).
Proof. intros Hr Hs. rewrite total_of_eq. nia. Qed.

Lemma candidate_double i : 2 * candidate i <= candidate (S i).
Proof.
  unfold candidate. cbn [convergent].
  destruct (convergent_pos i) as [Hr Hs].
  destruct (convergent i) as [r s]. now apply total_of_next_double.
Qed.

Lemma candidate_ge_4 i : 4 <= candidate i.
Proof.
  unfold candidate. destruct (convergent_pos i) as [Hr Hs].
  destruct (convergent i) as [r s]. now apply total_of_ge_4.
Qed.

Lemma candidate_lt_succ i : candidate i < candidate (S i).
Proof. pose proof (candidate_double i). pose proof (candidate_ge_4 i). lia. Qed.

Lemma candidate_lt i j : (i < j)%nat -> candidate i < candidate j.
Proof.
  induction 1 as [|j _ IH].
  - apply candidate_lt_succ.
  - pose proof (candidate_lt_succ j). lia.
Qed.

Lemma candidate_le i j : (i <= j)%nat -> candidate i <= candidate j.
Proof.
  intros H. destruct (Nat.eq_dec i j) as [->|Hne]; [lia|].
  assert (i < j)%nat by lia. pose proof (candidate_lt i j). lia.
Qed.

Lemma candidate_pow2 i : 2 ^ (Z.of_nat i + 2) <= candidate i.
Proof.
  induction i as [|i IH].
  - apply (candidate_ge_4 O).
  - pose proof (candidate_double i).
    replace (Z.of_nat (S i) + 2) with (Z.succ (Z.of_nat i + 2)) by lia.
    rewrite Z.pow_succ_r by lia. lia.
Qed.

(** ** The loop against the sequence of candidates *)

Lemma main_loop_step fuel n_min r s :
  main_loop (S fuel) n_min r s =
  if total_of (r, s) >? n_min then Some (result_of (r, s))
  else main_loop fuel n_min (r + 2 * s) (r + s).
Proof. reflexivity. Qed.

Lemma convergent_succ i :
  convergent (S i) =
  (fst (convergent i) + 2 * snd (convergent i),
   fst (convergent i) + snd (convergent i)).
Proof. cbn [convergent]. now destruct (convergent i). Qed.

Lemma first_exit_unique n_min i i' :
  first_exit n_min i -> first_exit n_min i' -> i = i'.
Proof.
  intros [Hi Hbelow] [Hi' Hbelow'].
  destruct (Nat.lt_trichotomy i i') as [Hlt|[Heq|Hgt]]; trivial.
  - specialize (Hbelow' i Hlt). lia.
  - specialize (Hbelow i' Hgt). lia.
Qed.

Lemma first_exit_below k n_min :
  n_min < candidate k -> exists i, (i <= k)%nat /\ first_exit n_min i.
Proof.
  induction k as [|k IH]; intros Hk.
  - exists O. split; [lia|]. split; [assumption|]. intros j Hj. lia.
  - destruct (Z_lt_le_dec n_min (candidate k)) as [Hlt|Hle].
    + destruct (IH Hlt) as [i [Hik Hi]]. exists i. split; [lia|assumption].
    + exists (S k). split; [lia|]. split; [assumption|].
      intros j Hj. assert (Hjk : (j <= k)%nat) by lia.
      pose proof (candidate_le j k Hjk). lia.
Qed.

Lemma candidate_main_fuel n_min :
  n_min < candidate (Z.to_nat (Z.log2 n_min)).
Proof.
  pose proof (candidate_pow2 (Z.to_nat (Z.log2 n_min))) as Hpow.
  pose proof (Z.log2_nonneg n_min) as Hlog.
  rewrite Z2Nat.id in Hpow by assumption.
  destruct (Z_lt_le_dec 0 n_min) as [Hpos|Hneg].
  - destruct (Z.log2_spec n_min Hpos) as [_ Hup].
    assert (2 ^ Z.succ (Z.log2 n_min) <= 2 ^ (Z.log2 n_min + 2))
      by (apply Z.pow_le_mono_r; lia).
    lia.
  - assert (0 < 2 ^ (Z.log2 n_min + 2)) by (apply Z.pow_pos_nonneg; lia).
    lia.
Qed.

Lemma first_exit_exists n_min :
  exists i, (i < main_fuel n_min)%nat /\ first_exit n_min i.
Proof.
  destruct (first_exit_below _ _ (candidate_main_fuel n_min)) as [i [Hi Hex]].
  exists i. split; [unfold main_fuel; lia|assumption].
Qed.

Lemma main_loop_complete fuel :
  forall j n_min i,
    first_exit n_min i -> (j <= i < j + fuel)%nat ->
    main_loop fuel n_min (fst (convergent j)) (snd (convergent j)) =
    Some (result_of (convergent i)).
Proof.
  induction fuel as [|fuel IH]; intros j n_min i Hex Hrange; [lia|].
  rewrite main_loop_step. rewrite <- surjective_pairing.
  fold (candidate j).
  destruct (Nat.eq_dec j i) as [->|Hne].
  - destruct Hex as [Hgt _].
    replace (candidate i >? n_min) with true by (symmetry; apply Z.gtb_lt; lia).
    reflexivity.
  - assert (Hle : candidate j <= n_min) by (apply Hex; lia).
    replace (candidate j >? n_min) with false
      by (symmetry; rewrite Z.gtb_ltb; apply Z.ltb_ge; lia).
    specialize (IH (S j) n_min i Hex).
    rewrite convergent_succ in IH. cbn [fst snd] in IH. apply IH. lia.
Qed.

Lemma main_loop_sound fuel :
  forall j n_min o,
    (forall k, (k < j)%nat -> candidate k <= n_min) ->
    main_loop fuel n_min (fst (convergent j)) (snd (convergent j)) = Some o ->
    exists i, first_exit n_min i /\ o = result_of (convergent i).
Proof.
  induction fuel as [|fuel IH]; intros j n_min o Hbelow Hrun; [discriminate|].
  rewrite main_loop_step in Hrun. rewrite <- surjective_pairing in Hrun.
  fold (candidate j) in Hrun.
  destruct (candidate j >? n_min) eqn:Hcmp.
  - exists j. apply Z.gtb_lt in Hcmp.
    split; [split; [lia|assumption]|congruence].
  - apply (IH (S j)).
    + intros k Hk. destruct (Nat.eq_dec k j) as [->|Hne].
      * rewrite Z.gtb_ltb in Hcmp. apply Z.ltb_ge in Hcmp. assumption.
      * apply Hbelow. lia.
    + rewrite convergent_succ. cbn [fst snd]. exact Hrun.
Qed.

(** The function [main] on a positive [int]: it is the result of the
    first iteration whose candidate exceeds the bound. *)
Lemma main_first_exit n_min i :
  0 < n_min -> first_exit n_min i ->
  main (VInt n_min) = Some (result_of (convergent i)).
Proof.
  intros Hpos Hex. unfold main.
  replace (n_min >? 0) with true by (symmetry; apply Z.gtb_lt; lia).
  destruct (first_exit_exists n_min) as [i' [Hfuel Hex']].
  rewrite (first_exit_unique _ _ _ Hex Hex').
  apply (main_loop_complete (main_fuel n_min) O n_min i' Hex'). lia.
Qed.

Lemma main_not_positive v :
  ~ positive_int v -> main v = Some (Raise AssertionError).
Proof.
  intros Hv. destruct v as [z| | | |]; try reflexivity.
  unfold main. destruct (z >? 0) eqn:Hz; [|reflexivity].
  exfalso. apply Hv. exists z. apply Z.gtb_lt in Hz. split; [reflexivity|lia].
Qed.

(** ** Pell's equation: the candidates are all the solutions *)

Section Pell.

Variables r s : Z.
Hypothesis r_pos : 1 <= r.
Hypothesis s_pos : 1 <= s.
Hypothesis pell : r * r - 2 * (s * s) = 1 \/ r * r - 2 * (s * s) = -1.

Lemma legs_consecutive :
  fst (legs r s) - snd (legs r s) = 1 \/ snd (legs r s) - fst (legs r s) = 1.
Proof using r_pos s_pos pell. rewrite legs_eq; cbn [fst snd]. lia. Qed.

Lemma legs_product :
  fst (legs r s) * snd (legs r s) = total_of (r, s) * (total_of (r, s) - 1).
Proof using r_pos s_pos pell.
  pose proof legs_consecutive as Hc.
  unfold total_of; cbn [fst snd]. destruct (legs r s) as [a b]; cbn [fst snd] in *.
  destruct Hc as [Hc|Hc].
  - rewrite Z.max_l by lia. replace a with (b + 1) by lia. ring.
  - rewrite Z.max_r by lia. replace b with (a + 1) by lia. ring.
Qed.

Lemma hypotenuse_square :
  hypotenuse (r, s) * hypotenuse (r, s) =
  1 + 2 * total_of (r, s) * (total_of (r, s) - 1).
Proof using r_pos s_pos pell.
  rewrite <- Z.mul_assoc, <- legs_product.
  unfold hypotenuse. rewrite legs_eq. cbn [fst snd].
  destruct pell as [H|H]; nia.
Qed.

Lemma total_of_next :
  total_of (next (r, s)) = 3 * total_of (r, s) - 1 + 2 * hypotenuse (r, s).
Proof using r_pos s_pos pell.
  unfold next, hypotenuse. rewrite !total_of_eq. cbn [fst snd].
  destruct pell as [H|H]; nia.
Qed.

Lemma hypotenuse_next :
  hypotenuse (next (r, s)) = 4 * total_of (r, s) - 2 + 3 * hypotenuse (r, s).
Proof using r_pos s_pos pell.
  unfold next, hypotenuse. rewrite !total_of_eq. cbn [fst snd].
  destruct pell as [H|H]; nia.
Qed.

End Pell.

Lemma convergent_pell i :
  let '(r, s) := convergent i in
  r * r - 2 * (s * s) = 1 \/ r * r - 2 * (s * s) = -1.
Proof.
  pose proof (reachable_pell _ _ (reachable_convergent i)) as H.
  now destruct (convergent i).
Qed.

(** One step down: from a solution [(n, z)] of [z^2 = n^2 + (n-1)^2] to
    the one before it. *)
Lemma pell_descent n z :
  4 <= n -> 0 <= z -> z * z = 1 + 2 * n * (n - 1) ->
  let n0 := 3 * n - 1 - 2 * z in
  let z0 := 3 * z - 4 * n + 2 in
  1 <= n0 < n /\ 1 <= z0 /\ z0 * z0 = 1 + 2 * n0 * (n0 - 1).
Proof.
  intros Hn Hz Heq. cbv zeta.
  assert (H1 : 2 * z <= 3 * n - 2) by nia.
  assert (H2 : 2 * n - 1 < 2 * z) by nia.
  assert (H3 : 4 * n - 1 <= 3 * z) by nia.
  repeat split; try lia; nia.
Qed.

Lemma no_solution_2_3 n z :
  2 <= n <= 3 -> z * z <> 1 + 2 * n * (n - 1).
Proof.
  intros Hn Heq. rewrite <- Z.abs_square in Heq.
  pose proof (Z.abs_nonneg z) as Hw. set (w := Z.abs z) in *.
  assert (Hc : n = 2 \/ n = 3) by lia.
  assert (Hs : w = 0 \/ w = 1 \/ w = 2 \/ w = 3 \/ 4 <= w) by lia.
  destruct Hc as [-> | ->];
    destruct Hs as [->|[->|[->|[->|Hs]]]]; try lia; nia.
Qed.

Lemma solutions_are_candidates_upto (k : nat) :
  forall n z,
    n <= Z.of_nat k -> 2 <= n -> 0 <= z -> z * z = 1 + 2 * n * (n - 1) ->
    exists i, candidate i = n /\ hypotenuse (convergent i) = z.
Proof.
  induction k as [|k IH]; intros n z Hk Hn Hz Heq; [lia|].
  destruct (Z_lt_le_dec n 4) as [Hsmall|Hbig].
  - exfalso. apply (no_solution_2_3 n z); [lia|assumption].
  - destruct (pell_descent n z Hbig Hz Heq) as [[Hn0 Hlt] [Hz0 Heq0]].
    set (n0 := 3 * n - 1 - 2 * z) in *.
    set (z0 := 3 * z - 4 * n + 2) in *.
    destruct (Z.eq_dec n0 1) as [Hone|Hmore].
    + exists O. rewrite Hone in Heq0.
      assert (z0 = 1) by nia.
      unfold candidate; cbn. unfold n0, z0 in *. lia.
    + destruct (IH n0 z0) as [i [Hi Hzi]]; try lia.
      exists (S i). unfold candidate in *. cbn [convergent].
      destruct (convergent_pos i) as [Hr Hs].
      pose proof (convergent_pell i) as Hp.
      destruct (convergent i) as [r s]. cbn [fst snd] in *.
      rewrite total_of_next, hypotenuse_next by assumption.
      rewrite Hi, Hzi. unfold n0, z0. lia.
Qed.

Lemma solutions_are_candidates n :
  2 <= n -> square_radicand n -> exists i, candidate i = n.
Proof.
  intros Hn [z Hz]. rewrite <- Z.abs_square in Hz.
  destruct (solutions_are_candidates_upto (Z.to_nat n) n (Z.abs z))
    as [i [Hi _]]; try lia.
  now exists i.
Qed.

Lemma valid_square_radicand total blue :
  valid_arrangement total blue -> square_radicand total.
Proof.
  unfold valid_arrangement. intros H. exists (2 * blue - 1). lia.
Qed.

Lemma candidate_square_radicand i : square_radicand (candidate i).
Proof.
  exists (hypotenuse (convergent i)). unfold candidate.
  destruct (convergent_pos i) as [Hr Hs].
  pose proof (convergent_pell i) as Hp.
  destruct (convergent i) as [r s]. now apply hypotenuse_square.
Qed.

Lemma first_exit_minimal b i t' :
  0 < b -> first_exit b i -> b < t' < candidate i -> ~ square_radicand t'.
Proof.
  intros Hb [_ Hbelow] Ht Hsq.
  destruct (solutions_are_candidates t') as [j Hj]; [lia|assumption|].
  destruct (Nat.lt_ge_cases j i) as [Hlt|Hge].
  - specialize (Hbelow j Hlt). lia.
  - pose proof (candidate_le i j Hge). lia.
Qed.

(** ** The floating-point extraction of the blue count *)

Lemma valid_arrangementb_spec t x :
  valid_arrangementb t x = true <-> valid_arrangement t x.
Proof. apply Z.eqb_eq. Qed.

(** The bound of [float_of_int] is where rounding leaves the finite
    floats: at [float_overflow] the rounded value is infinite, one below
    it is the greatest finite float. *)
Lemma float_overflow_rounding :
  binary_normalize prec emax float_overflow 0 false = S754_infinity false /\
  binary_normalize prec emax (float_overflow - 1) 0 false =
    SFmax_float prec emax.
Proof. split; vm_compute; reflexivity. Qed.

Lemma blue_count_overflow a b :
  float_overflow <= 1 + 2 * a * b -> blue_count a b = Raise OverflowError.
Proof.
  intros H. unfold blue_count, math_sqrt, float_of_int.
  replace (float_overflow <=? Z.abs (1 + 2 * a * b)) with true; [reflexivity|].
  symmetry. apply Z.leb_le. pose proof (Z.abs_nonneg (1 + 2 * a * b)).
  rewrite Z.abs_eq; [assumption|].
  assert (0 <= float_overflow) by (vm_compute; discriminate). lia.
Qed.

Lemma overflow_candidate :
  float_overflow <=
  1 + 2 * candidate overflow_from * (candidate overflow_from - 1).
Proof. apply Z.leb_le. vm_compute. reflexivity. Qed.

Lemma result_of_overflow i :
  (overflow_from <= i)%nat -> result_of (convergent i) = Raise OverflowError.
Proof.
  intros Hi. pose proof (candidate_le _ _ Hi) as Hle.
  pose proof (candidate_ge_4 overflow_from) as H4.
  pose proof overflow_candidate as Hov.
  unfold candidate in Hle.
  destruct (convergent_pos i) as [Hr Hs].
  pose proof (convergent_pell i) as Hp.
  destruct (convergent i) as [r s]. cbn [fst snd] in Hr, Hs.
  pose proof (legs_product r s Hr Hs Hp) as Hprod.
  unfold result_of. cbn [fst snd]. destruct (legs r s) as [a b].
  cbn [fst snd] in Hprod.
  rewrite blue_count_overflow; [reflexivity|].
  rewrite <- Z.mul_assoc, Hprod.
  fold (candidate overflow_from) in *.
  set (m := candidate overflow_from) in *. set (n := total_of (r, s)) in *.
  clearbody m n. generalize dependent float_overflow. intros. nia.
Qed.

Lemma results_in_range :
  forallb (fun i => blue_in_range (result_of (convergent i)))
          (seq 0 overflow_from) = true.
Proof. vm_compute. reflexivity. Qed.

Lemma results_exact :
  forallb (fun i => exact_result (result_of (convergent i)))
          (seq 0 inexact_from) = true.
Proof. vm_compute. reflexivity. Qed.

Lemma results_inexact :
  forallb (fun i => negb (exact_result (result_of (convergent i))))
          (seq inexact_from (overflow_from - inexact_from)) = true.
Proof. vm_compute. reflexivity. Qed.

Lemma result_in_range i t x :
  result_of (convergent i) = Return (t, x) -> 0 < x < t.
Proof.
  intros Hres. destruct (Nat.lt_ge_cases i overflow_from) as [Hlt|Hge].
  - pose proof results_in_range as Hall.
    rewrite forallb_forall in Hall. specialize (Hall i).
    rewrite Hres in Hall. cbn [blue_in_range] in Hall.
    assert (Hin : In i (seq 0 overflow_from)) by (apply in_seq; lia).
    apply Hall in Hin. apply andb_true_iff in Hin. destruct Hin as [H0 H1].
    apply Z.ltb_lt in H0, H1. lia.
  - rewrite (result_of_overflow i Hge) in Hres. discriminate.
Qed.

Lemma result_exact i :
  (i < inexact_from)%nat ->
  exists t x, result_of (convergent i) = Return (t, x) /\ valid_arrangement t x.
Proof.
  intros Hlt. pose proof results_exact as Hall.
  rewrite forallb_forall in Hall. specialize (Hall i).
  assert (Hin : In i (seq 0 inexact_from)) by (apply in_seq; lia).
  apply Hall in Hin. destruct (result_of (convergent i)) as [[t x]|e];
    [|discriminate].
  exists t, x. split; [reflexivity|]. now apply valid_arrangementb_spec.
Qed.

Lemma result_inexact i t x :
  (inexact_from <= i)%nat ->
  result_of (convergent i) = Return (t, x) -> ~ valid_arrangement t x.
Proof.
  intros Hge Hres Hvalid.
  destruct (Nat.lt_ge_cases i overflow_from) as [Hlt|Hov].
  - pose proof results_inexact as Hall.
    rewrite forallb_forall in Hall. specialize (Hall i).
    assert (Hin : In i (seq inexact_from (overflow_from - inexact_from)))
      by (apply in_seq; lia).
    apply Hall in Hin. rewrite Hres in Hin. cbn [exact_result] in Hin.
    apply valid_arrangementb_spec in Hvalid. rewrite Hvalid in Hin.
    discriminate.
  - rewrite (result_of_overflow i Hov) in Hres. discriminate.
Qed.

Lemma result_of_total st t x :
  result_of st = Return (t, x) -> t = total_of st.
Proof.
  unfold result_of, total_of. destruct (legs (fst st) (snd st)) as [a b].
  destruct (blue_count a b) as [y|e]; cbn [bind]; congruence.
Qed.

Lemma blue_count_no_assert a b : blue_count a b <> Raise AssertionError.
Proof.
  unfold blue_count, math_sqrt, int_add_float, float_truediv_int, float_of_int.
  destruct (float_overflow <=? Z.abs (1 + 2 * a * b)); cbn [bind];
    [discriminate|].
  destruct (math_sqrt_float _) as [root|e] eqn:Hroot; cbn [bind].
  - destruct (float_overflow <=? Z.abs 1); cbn [bind]; [discriminate|].
    destruct (float_overflow <=? Z.abs 2); cbn [bind]; [discriminate|].
    destruct (binary_normalize prec emax 2 0 false); try discriminate;
      destruct (SFdiv _ _ _ _); cbn [int_of_float]; discriminate.
  - unfold math_sqrt_float in Hroot.
    destruct (binary_normalize _ _ _ _ _) as [| [|] | | [|] ? ?];
      congruence.
Qed.

Lemma result_of_no_assert st : result_of st <> Raise AssertionError.
Proof.
  unfold result_of. destruct (legs _ _) as [a b].
  pose proof (blue_count_no_assert a b) as H.
  destruct (blue_count a b) as [x|e]; cbn [bind]; congruence.
Qed.

(** Every call is one of two kinds. *)
Lemma main_cases v :
  (~ positive_int v /\ main v = Some (Raise AssertionError)) \/
  (exists b i, v = VInt b /\ 0 < b /\ first_exit b i /\
               main v = Some (result_of (convergent i))).
Proof.
  assert (Hneg : ~ positive_int v ->
                 ~ positive_int v /\ main v = Some (Raise AssertionError))
    by (intros H; split; [assumption|now apply main_not_positive]).
  destruct v as [z| | | |];
    try (left; apply Hneg; intros [z' [Hz' _]]; discriminate).
  destruct (Z_lt_le_dec 0 z) as [Hpos|Hle].
  - right. destruct (first_exit_exists z) as [i [_ Hex]].
    exists z, i. repeat split; try assumption; try apply Hex.
    now apply main_first_exit.
  - left. apply Hneg. intros [z' [Hz' Hz'']]. injection Hz' as <-. lia.
Qed.

(** X1. A call raises [AssertionError] exactly when its argument is not
    an [int] greater than 0: a [bool], a [float] (integral or not), a
    [str], [None], zero and the negative integers are all refused, and
    no positive [int] is. *)
Lemma main_assertion_iff v :
  main v = Some (Raise AssertionError) <-> ~ positive_int v.
Proof.
  split; [|apply main_not_positive].
  intros Hmain Hpos.
  destruct (main_cases v) as [[Hneg _]|[b [i [_ [_ [_ Hrun]]]]]];
    [contradiction|].
  rewrite Hrun in Hmain. injection Hmain as Hres.
  now apply (result_of_no_assert (convergent i)).
Qed.

(** ** The properties of the specification *)

(** C1 (the code departs from it). A returned pair is meant to be a valid
    arrangement, [2 * blue * (blue - 1) = total * (total - 1)].  For the
    bound [2 * 10^15] the loop stops at the total 7199369738058940, whose
    blue count is 5090723162050695, but the floating-point extraction
    returns 5090723162050696: the pair returned is not an arrangement. *)
Theorem main_inexact_blue :
  main (VInt (2 * 10 ^ 15)) =
    Some (Return (7199369738058940, 5090723162050696)) /\
  ~ valid_arrangement 7199369738058940 5090723162050696 /\
  valid_arrangement 7199369738058940 5090723162050695.
Proof.
  split; [vm_compute; reflexivity|].
  split; [|vm_compute; reflexivity].
  unfold valid_arrangement. intros H. vm_compute in H. discriminate.
Qed.

(** Where the extraction is exact: a positive bound under the candidate
    of iteration 19 gets a valid arrangement, any other bound does not. *)
Lemma main_valid_iff_candidate b :
  0 < b ->
  (exists t x, main (VInt b) = Some (Return (t, x)) /\ valid_arrangement t x)
  <-> b < candidate 19.
Proof.
  intros Hb.
  destruct (first_exit_exists b) as [i [_ Hex]].
  rewrite (main_first_exit b i Hb Hex).
  destruct Hex as [Hgt Hbelow].
  destruct (Nat.lt_ge_cases i inexact_from) as [Hlt|Hge].
  - split.
    + intros _. assert (Hi : (i <= 19)%nat) by (unfold inexact_from in Hlt; lia).
      pose proof (candidate_le _ _ Hi). lia.
    + intros _. destruct (result_exact i Hlt) as [t [x [Hres Hv]]].
      exists t, x. now rewrite Hres.
  - split.
    + intros [t [x [Hres Hv]]]. injection Hres as Hres.
      exfalso. now apply (result_inexact i t x Hge Hres).
    + intros Hlt.
      assert (H : candidate 19 <= b)
        by (apply Hbelow; unfold inexact_from in Hge; lia).
      lia.
Qed.

Lemma candidate_19 : candidate 19 = 1235216565974041.
Proof. vm_compute. reflexivity. Qed.

(** X4. For a positive bound, the call returns a valid arrangement
    exactly when the bound is below 1235216565974041, the candidate
    total of iteration 19; from there on the root passes [2^53] and the
    blue count returned is off. *)
Lemma main_valid_iff b :
  0 < b ->
  (exists t x, main (VInt b) = Some (Return (t, x)) /\ valid_arrangement t x)
  <-> b < 1235216565974041.
Proof.
  intros Hb. pose proof (main_valid_iff_candidate b Hb) as H.
  rewrite candidate_19 in H. exact H.
Qed.

(** C2. For a positive bound [b] the loop reaches its [return] at some
    iteration [i]; the total it holds there exceeds [b], no integer
    strictly between [b] and that total has [1 + 2*t*(t-1)] a perfect
    square (so none admits a blue count), and a pair returned by [main]
    carries exactly that total. *)
Theorem main_total_minimal b :
  0 < b ->
  exists i,
    main (VInt b) = Some (result_of (convergent i)) /\
    b < candidate i /\
    (forall t', b < t' < candidate i ->
       ~ square_radicand t' /\ forall x', ~ valid_arrangement t' x') /\
    (forall t x, main (VInt b) = Some (Return (t, x)) -> t = candidate i).
Proof.
  intros Hb. destruct (first_exit_exists b) as [i [_ Hex]].
  exists i. pose proof (main_first_exit b i Hb Hex) as Hmain.
  split; [assumption|]. split; [apply Hex|]. split.
  - intros t' Ht.
    pose proof (first_exit_minimal b i t' Hb Hex Ht) as Hnone.
    split; [assumption|].
    intros x' Hv. apply Hnone. now apply (valid_square_radicand t' x').
  - intros t x Hret. rewrite Hmain in Hret. injection Hret as Hret.
    now apply result_of_total in Hret.
Qed.

Lemma main_total_minimal_witness :
  0 < 21 /\
  exists i,
    main (VInt 21) = Some (result_of (convergent i)) /\
    21 < candidate i /\
    (forall t', 21 < t' < candidate i ->
       ~ square_radicand t' /\ forall x', ~ valid_arrangement t' x') /\
    (forall t x, main (VInt 21) = Some (Return (t, x)) -> t = candidate i).
Proof. split; [lia|apply (main_total_minimal 21); lia]. Defined.

(** C3. For the bound [10^12] the call returns the total 1070379110497,
    above [10^12], with the blue count 756872327473, and the two satisfy
    [2 * blue * (blue - 1) = total * (total - 1)]: at this size the
    floating-point root is still exact. *)
Theorem main_target_bound :
  main (VInt (10 ^ 12)) = Some (Return (1070379110497, 756872327473)) /\
  10 ^ 12 < 1070379110497 /\
  valid_arrangement 1070379110497 756872327473.
Proof. repeat split; vm_compute; reflexivity. Qed.

(** C4, as the code has it. The bounds 1, 2 and 3 get [(4, 3)], the
    bounds from 4 to 20 get [(21, 15)], and the bound 21 gets
    [(120, 85)]. *)
Theorem main_known_points b :
  1 <= b <= 21 ->
  main (VInt b) =
    Some (Return (if b <? 4 then (4, 3)
                  else if b <? 21 then (21, 15) else (120, 85))).
Proof.
  intros Hb.
  assert (H0 : candidate 0 = 4) by reflexivity.
  assert (H1 : candidate 1 = 21) by reflexivity.
  assert (H2 : candidate 2 = 120) by reflexivity.
  assert (Hex : exists i, first_exit b i /\
           result_of (convergent i) =
           Return (if b <? 4 then (4, 3)
                   else if b <? 21 then (21, 15) else (120, 85))).
  { destruct (b <? 4) eqn:H4; [|destruct (b <? 21) eqn:H21].
    - apply Z.ltb_lt in H4. exists 0%nat. split; [|reflexivity].
      split; [lia|]. intros j Hj. lia.
    - apply Z.ltb_ge in H4. apply Z.ltb_lt in H21.
      exists 1%nat. split; [|reflexivity].
      split; [lia|]. intros j Hj. replace j with 0%nat by lia. lia.
    - apply Z.ltb_ge in H21. exists 2%nat. split; [|reflexivity].
      split; [lia|]. intros j Hj.
      assert (Hj' : j = 0%nat \/ j = 1%nat) by lia.
      destruct Hj' as [-> | ->]; lia. }
  destruct Hex as [i [Hex Hres]].
  rewrite (main_first_exit b i) by (lia || assumption). now rewrite Hres.
Qed.

Lemma main_known_points_witness :
  1 <= 10 <= 21 /\ main (VInt 10) = Some (Return (21, 15)).
Proof. split; [lia|apply (main_known_points 10); lia]. Defined.

(** C4 as written fails: the bound 1 does not get [(21, 15)]. *)
Lemma main_bound_1_not_21 :
  ~ main (VInt 1) = Some (Return (21, 15)).
Proof. vm_compute. discriminate. Qed.

(** C5 (the code departs from it). The assertion is the only check on
    the argument ([main_assertion_iff]), but a positive [int] can still
    make the call raise: with the bound [10^200] the radicand handed to
    the square root is too large to convert to a float. *)
Theorem main_overflow_error :
  positive_int (VInt (10 ^ 200)) /\
  main (VInt (10 ^ 200)) = Some (Raise OverflowError).
Proof.
  split.
  - exists (10 ^ 200). split; [reflexivity|]. apply Z.ltb_lt. vm_compute. reflexivity.
  - vm_compute. reflexivity.
Qed.

(** C6. For a positive bound the loop terminates: the candidate total
    grows strictly with every update, it passes any given integer, and
    so some iteration [i] is the first one over the bound; the loop run
    for more than [i] turns returns there, and [main] never runs out of
    iterations. *)
Theorem main_loop_terminates n_min :
  0 < n_min ->
  (forall r s, reachable r s ->
     total_of (r, s) < total_of (r + 2 * s, r + s)) /\
  (forall M, exists i, M < candidate i) /\
  (exists i, first_exit n_min i /\
     forall fuel, (i < fuel)%nat ->
       main_loop fuel n_min 1 1 = Some (result_of (convergent i))) /\
  main (VInt n_min) <> None.
Proof.
  intros Hpos. repeat split.
  - intros r s Hreach. destruct (reachable_pos r s Hreach) as [Hr Hs].
    pose proof (total_of_next_double r s Hr Hs) as Hd.
    pose proof (total_of_ge_4 r s Hr Hs). unfold next in Hd. lia.
  - intros M. exists (Z.to_nat (Z.log2 M)). apply candidate_main_fuel.
  - destruct (first_exit_exists n_min) as [i [_ Hex]]. exists i.
    split; [assumption|]. intros fuel Hfuel.
    apply (main_loop_complete fuel O n_min i Hex). lia.
  - destruct (first_exit_exists n_min) as [i [_ Hex]].
    rewrite (main_first_exit n_min i Hpos Hex). discriminate.
Qed.

Lemma main_loop_terminates_witness :
  0 < 10 ^ 12 /\
  (exists i, first_exit (10 ^ 12) i /\
     forall fuel, (i < fuel)%nat ->
       main_loop fuel (10 ^ 12) 1 1 = Some (result_of (convergent i))).
Proof.
  assert (H : 0 < 10 ^ 12) by (apply Z.ltb_lt; vm_compute; reflexivity).
  split; [exact H|apply (main_loop_terminates (10 ^ 12) H)].
Defined.

(** C7. Every state reachable from the seed [(1, 1)] by the update
    [(r, s) := (r + 2s, r + s)] satisfies [r^2 - 2 s^2 = 1] or [= -1];
    the legs [a = (p-q)(p+q) = p^2 - q^2] and [b = 2pq], with [p = r + s]
    and [q = s], differ by exactly 1, and [a * b = n * (n - 1)] for
    [n = max a b]. *)
Theorem reachable_invariant r s :
  reachable r s ->
  let p := r + s in
  let q := s in
  let a := (p - q) * (p + q) in
  let b := 2 * p * q in
  let n := Z.max a b in
  (r * r - 2 * (s * s) = 1 \/ r * r - 2 * (s * s) = -1) /\
  a = p * p - q * q /\
  Z.abs (a - b) = 1 /\
  a * b = n * (n - 1).
Proof.
  intros Hreach. cbv zeta.
  pose proof (reachable_pell r s Hreach) as Hp.
  destruct (reachable_pos r s Hreach) as [Hr Hs].
  pose proof (legs_consecutive r s Hr Hs Hp) as Hc.
  pose proof (legs_product r s Hr Hs Hp) as Hprod.
  unfold total_of, legs in *. cbn [fst snd] in *.
  repeat split; [assumption|ring|lia|assumption].
Qed.

Lemma reachable_invariant_witness :
  reachable 3 2 /\
  (3 * 3 - 2 * (2 * 2) = 1 \/ 3 * 3 - 2 * (2 * 2) = -1) /\
  21 = 5 * 5 - 2 * 2 /\ Z.abs (21 - 20) = 1 /\ 21 * 20 = 21 * (21 - 1).
Proof.
  split; [exact (reach_step 1 1 reach_seed)|].
  exact (reachable_invariant 3 2 (reach_step 1 1 reach_seed)).
Defined.

Lemma result_returns i :
  (i < overflow_from)%nat ->
  exists t x, result_of (convergent i) = Return (t, x).
Proof.
  intros Hlt. pose proof results_in_range as Hall.
  rewrite forallb_forall in Hall. specialize (Hall i).
  assert (Hin : In i (seq 0 overflow_from)) by (apply in_seq; lia).
  apply Hall in Hin.
  destruct (result_of (convergent i)) as [[t x]|e]; [|discriminate].
  now exists t, x.
Qed.

Lemma candidate_200 : 10 ^ 153 <= candidate 200.
Proof. apply Z.leb_le. vm_compute. reflexivity. Qed.

(** C8. Whatever pair a call with a positive bound returns, its blue
    count lies strictly between 0 and its total; and a call does return
    a pair for every positive bound under [10^153]. *)
Theorem main_blue_in_range b :
  0 < b ->
  (forall t x, main (VInt b) = Some (Return (t, x)) -> 0 < x < t) /\
  (b < 10 ^ 153 -> exists t x, main (VInt b) = Some (Return (t, x))).
Proof.
  intros Hb. destruct (first_exit_exists b) as [i [_ Hex]].
  rewrite (main_first_exit b i Hb Hex). split.
  - intros t x Hret. injection Hret as Hret.
    now apply (result_in_range i t x).
  - intros Hsmall.
    destruct (Nat.lt_ge_cases i overflow_from) as [Hlt|Hge].
    + destruct (result_returns i Hlt) as [t [x Hres]].
      exists t, x. now rewrite Hres.
    + exfalso. destruct Hex as [_ Hbelow].
      assert (H : candidate 200 <= b)
        by (apply Hbelow; unfold overflow_from in Hge; lia).
      pose proof candidate_200. lia.
Qed.

Lemma main_blue_in_range_witness :
  0 < 21 /\ 0 < 85 < 120.
Proof.
  split; [lia|].
  apply (proj1 (main_blue_in_range 21 ltac:(lia)) 120 85).
  vm_compute. reflexivity.
Defined.

(** C10. The bounds 1, 2 and 3 get [(4, 3)], the result of the very
    first iteration, and [(4, 3)] is a valid arrangement; a returned
    total is 4 or at least 21, and 21 is returned for the bound 4. *)
Theorem main_first_candidate :
  (forall b, 1 <= b <= 3 -> main (VInt b) = Some (Return (4, 3))) /\
  result_of (convergent 0) = Return (4, 3) /\
  valid_arrangement 4 3 /\
  (forall v t x, main v = Some (Return (t, x)) -> t = 4 \/ 21 <= t) /\
  main (VInt 4) = Some (Return (21, 15)).
Proof.
  split; [|split; [reflexivity|split; [reflexivity|split; [|reflexivity]]]].
  - intros b Hb. rewrite (main_first_exit b 0%nat); [reflexivity|lia|].
    split; [change (candidate 0) with 4; lia|]. intros j Hj. lia.
  - intros v t x Hret.
    destruct (main_cases v) as [[_ Hraise]|[b [i [_ [_ [_ Hrun]]]]]].
    + rewrite Hraise in Hret. discriminate.
    + rewrite Hrun in Hret. injection Hret as Hret.
      apply result_of_total in Hret. fold (candidate i) in Hret.
      destruct i as [|i]; [left; exact Hret|right].
      assert (Hi : (1 <= S i)%nat) by lia.
      pose proof (candidate_le _ _ Hi) as Hle.
      change (candidate 1) with 21 in Hle. lia.
Qed.

Lemma main_first_candidate_witness :
  1 <= 2 <= 3 /\ main (VInt 2) = Some (Return (4, 3)) /\
  (120 = 4 \/ 21 <= 120).
Proof.
  split; [lia|]. split.
  - apply (proj1 main_first_candidate 2). lia.
  - apply (proj1 (proj2 (proj2 (proj2 main_first_candidate))) (VInt 21) 120 85).
    vm_compute. reflexivity.
Defined.


(** * Further properties of the search *)

(** ** The parameters of Euclid's formula *)

Lemma reachable_next r s :
  reachable r s -> reachable (fst (next (r, s))) (snd (next (r, s))).
Proof. intros H. cbn [next fst snd]. now constructor. Qed.

Lemma reachable_r_odd r s : reachable r s -> Z.odd r = true.
Proof.
  induction 1 as [|r s _ IH]; [reflexivity|].
  now rewrite Z.odd_add_mul_2.
Qed.

Lemma hypotenuse_eq r s :
  hypotenuse (r, s) = r * r + 2 * r * s + 2 * (s * s).
Proof. unfold hypotenuse; cbn [fst snd]. ring. Qed.

Lemma hypotenuse_odd r s : reachable r s -> Z.odd (hypotenuse (r, s)) = true.
Proof.
  intros Hreach. apply reachable_r_odd in Hreach.
  apply Z.odd_spec in Hreach. destruct Hreach as [k ->].
  rewrite hypotenuse_eq. apply Z.odd_spec.
  exists (2 * k * k + 2 * k + 2 * k * s + s + s * s). ring.
Qed.

(** X9. In every iteration the integers [p = r + s] and [q = s] meet the
    side conditions of Euclid's formula for a primitive triple:
    [0 < q < p], [p] and [q] are coprime, and [p - q] is odd. *)
Theorem euclid_parameters r s :
  reachable r s ->
  let p := r + s in
  let q := s in
  0 < q < p /\ Z.gcd p q = 1 /\ Z.odd (p - q) = true.
Proof.
  intros Hreach. cbv zeta.
  destruct (reachable_pos r s Hreach) as [Hr Hs].
  split; [lia|]. split.
  - apply Z.bezout_1_gcd.
    destruct (reachable_pell r s Hreach) as [Hp|Hp].
    + exists r, (- (r + 2 * s)). lia.
    + exists (- r), (r + 2 * s). lia.
  - replace (r + s - s) with r by ring. now apply (reachable_r_odd r s).
Qed.

Lemma euclid_parameters_witness :
  reachable 3 2 /\ (0 < 2 < 3 + 2 /\ Z.gcd (3 + 2) 2 = 1 /\
                    Z.odd (3 + 2 - 2) = true).
Proof.
  split; [exact (reach_step 1 1 reach_seed)|].
  exact (euclid_parameters 3 2 (reach_step 1 1 reach_seed)).
Defined.

(** X10. The legs [a], [b] of every iteration are positive and coprime,
    they are the legs of a right triangle with hypotenuse
    [c = p^2 + q^2], and the radicand [1 + 2*a*b] handed to the square
    root is exactly [c^2] with [c] odd: the exact root is an odd integer
    and [(1 + c) / 2] loses nothing. *)
Theorem legs_primitive_triple r s :
  reachable r s ->
  let p := r + s in
  let q := s in
  let a := (p - q) * (p + q) in
  let b := 2 * p * q in
  let c := p * p + q * q in
  0 < a /\ 0 < b /\ Z.gcd a b = 1 /\
  a * a + b * b = c * c /\
  1 + 2 * a * b = c * c /\ Z.odd c = true /\
  2 * ((1 + c) / 2) = 1 + c.
Proof.
  intros Hreach. cbv zeta.
  destruct (reachable_pos r s Hreach) as [Hr Hs].
  pose proof (reachable_pell r s Hreach) as Hp.
  pose proof (hypotenuse_odd r s Hreach) as Hodd.
  unfold hypotenuse in Hodd; cbn [fst snd] in Hodd.
  set (c := (r + s) * (r + s) + s * s) in *.
  assert (Hab : (r + s - s) * (r + s + s) - 2 * (r + s) * s = 1 \/
                (r + s - s) * (r + s + s) - 2 * (r + s) * s = -1) by lia.
  split; [nia|]. split; [nia|]. split; [|split; [|split; [|split]]].
  - apply Z.bezout_1_gcd. destruct Hab as [H|H].
    + exists 1, (-1). lia.
    + exists (-1), 1. lia.
  - unfold c. ring.
  - unfold c. destruct Hp as [H|H]; nia.
  - exact Hodd.
  - apply Z.odd_spec in Hodd. destruct Hodd as [k Hk]. rewrite Hk.
    replace (1 + (2 * k + 1)) with ((k + 1) * 2) by ring.
    rewrite Z.div_mul by lia. ring.
Qed.

Lemma legs_primitive_triple_witness :
  reachable 3 2 /\
  (0 < (3 + 2 - 2) * (3 + 2 + 2) /\ 0 < 2 * (3 + 2) * 2 /\
   Z.gcd ((3 + 2 - 2) * (3 + 2 + 2)) (2 * (3 + 2) * 2) = 1 /\
   (3 + 2 - 2) * (3 + 2 + 2) * ((3 + 2 - 2) * (3 + 2 + 2)) +
     2 * (3 + 2) * 2 * (2 * (3 + 2) * 2) =
     ((3 + 2) * (3 + 2) + 2 * 2) * ((3 + 2) * (3 + 2) + 2 * 2) /\
   1 + 2 * ((3 + 2 - 2) * (3 + 2 + 2)) * (2 * (3 + 2) * 2) =
     ((3 + 2) * (3 + 2) + 2 * 2) * ((3 + 2) * (3 + 2) + 2 * 2) /\
   Z.odd ((3 + 2) * (3 + 2) + 2 * 2) = true /\
   2 * ((1 + ((3 + 2) * (3 + 2) + 2 * 2)) / 2) =
     1 + ((3 + 2) * (3 + 2) + 2 * 2)).
Proof.
  split; [exact (reach_step 1 1 reach_seed)|].
  exact (legs_primitive_triple 3 2 (reach_step 1 1 reach_seed)).
Defined.

(** ** How the candidate totals follow each other *)

Lemma convergent_sign i :
  fst (convergent i) * fst (convergent i)
  - 2 * (snd (convergent i) * snd (convergent i)) =
  if Nat.even i then -1 else 1.
Proof.
  induction i as [|i IH]; [reflexivity|].
  rewrite convergent_succ. cbn [fst snd].
  rewrite Nat.even_succ, <- Nat.negb_even.
  destruct (Nat.even i); cbn [negb]; lia.
Qed.

(** X11. The greater leg alternates: in the iterations 0, 2, 4, ... it
    is [b = 2*p*q] (one more than [a]) and the candidate total is even;
    in the iterations 1, 3, 5, ... it is [a] (one more than [b]) and the
    candidate total is odd. *)
Theorem candidate_alternates i :
  let a := fst (legs (fst (convergent i)) (snd (convergent i))) in
  let b := snd (legs (fst (convergent i)) (snd (convergent i))) in
  if Nat.even i
  then b = a + 1 /\ candidate i = b /\ Z.even (candidate i) = true
  else a = b + 1 /\ candidate i = a /\ Z.odd (candidate i) = true.
Proof.
  cbv zeta. pose proof (convergent_sign i) as Hsign.
  unfold candidate, total_of.
  destruct (convergent i) as [r s]. cbn [fst snd] in *.
  assert (Hb : Z.even (snd (legs r s)) = true).
  { unfold legs; cbn [snd]. now rewrite <- Z.mul_assoc, Z.even_mul. }
  assert (Hd : fst (legs r s) - snd (legs r s) = r * r - 2 * (s * s))
    by (rewrite legs_eq; cbn [fst snd]; ring).
  destruct (legs r s) as [a b]. cbn [fst snd] in *.
  destruct (Nat.even i).
  - assert (Hba : b = a + 1) by lia.
    split; [assumption|]. rewrite Z.max_r by lia. split; [reflexivity|assumption].
  - assert (Hab : a = b + 1) by lia.
    split; [assumption|]. rewrite Z.max_l by lia. split; [reflexivity|].
    rewrite Hab, Z.add_1_r, Z.odd_succ. assumption.
Qed.

Lemma growth_of_total r s :
  reachable r s ->
  total_of (r, s) <= hypotenuse (r, s) /\
  2 * hypotenuse (r, s) <= 3 * total_of (r, s).
Proof.
  intros Hreach. destruct (reachable_pos r s Hreach) as [Hr Hs].
  pose proof (reachable_pell r s Hreach) as Hp.
  pose proof (hypotenuse_square r s Hr Hs Hp) as Hsq.
  pose proof (total_of_ge_4 r s Hr Hs) as H4.
  assert (Hz : 0 < hypotenuse (r, s)) by (rewrite hypotenuse_eq; nia).
  set (n := total_of (r, s)) in *. set (z := hypotenuse (r, s)) in *.
  clearbody n z. split; nia.
Qed.

(** X7. One update of [(r, s)] multiplies the candidate total by
    between 5 and 6: the next candidate [n'] satisfies
    [5*n - 1 <= n' <= 6*n - 1]. *)
Theorem total_growth r s :
  reachable r s ->
  5 * total_of (r, s) - 1 <= total_of (r + 2 * s, r + s) <=
  6 * total_of (r, s) - 1.
Proof.
  intros Hreach. destruct (reachable_pos r s Hreach) as [Hr Hs].
  pose proof (reachable_pell r s Hreach) as Hp.
  pose proof (total_of_next r s Hr Hs Hp) as Hnext. unfold next in Hnext.
  destruct (growth_of_total r s Hreach) as [Hlo Hhi]. lia.
Qed.

Lemma total_growth_witness :
  reachable 3 2 /\
  5 * total_of (3, 2) - 1 <= total_of (3 + 2 * 2, 3 + 2) <=
  6 * total_of (3, 2) - 1.
Proof.
  split; [exact (reach_step 1 1 reach_seed)|].
  exact (total_growth 3 2 (reach_step 1 1 reach_seed)).
Defined.

(** X8. Three candidate totals in a row, [n], [n'], [n''], obey the
    linear recurrence [n'' = 6*n' - n - 2]. *)
Theorem total_recurrence r s :
  reachable r s ->
  total_of (next (next (r, s))) =
  6 * total_of (next (r, s)) - total_of (r, s) - 2.
Proof.
  intros Hreach. destruct (reachable_pos r s Hreach) as [Hr Hs].
  pose proof (reachable_pell r s Hreach) as Hp.
  pose proof (reachable_next r s Hreach) as Hreach'.
  destruct (reachable_pos _ _ Hreach') as [Hr' Hs'].
  pose proof (reachable_pell _ _ Hreach') as Hp'.
  pose proof (total_of_next r s Hr Hs Hp) as H1.
  pose proof (hypotenuse_next r s Hr Hs Hp) as H2.
  pose proof (total_of_next _ _ Hr' Hs' Hp') as H3.
  rewrite <- surjective_pairing in H3. lia.
Qed.

Lemma total_recurrence_witness :
  reachable 1 1 /\
  total_of (next (next (1, 1))) =
  6 * total_of (next (1, 1)) - total_of (1, 1) - 2.
Proof. split; [exact reach_seed|exact (total_recurrence 1 1 reach_seed)]. Defined.

Lemma candidate_growth i :
  5 * candidate i - 1 <= candidate (S i) <= 6 * candidate i - 1.
Proof.
  pose proof (reachable_convergent i) as Hreach.
  destruct (convergent_pos i) as [Hr Hs].
  pose proof (convergent_pell i) as Hp.
  unfold candidate. rewrite convergent_succ.
  destruct (convergent i) as [r s]. cbn [fst snd] in *.
  pose proof (total_of_next r s Hr Hs Hp) as Hnext. unfold next in Hnext.
  destruct (growth_of_total r s Hreach) as [Hlo Hhi]. lia.
Qed.

Lemma candidate_recurrence i :
  candidate (S (S i)) = 6 * candidate (S i) - candidate i - 2.
Proof.
  pose proof (reachable_convergent i) as Hreach.
  pose proof (reachable_convergent (S i)) as Hreach'.
  unfold candidate. rewrite (convergent_succ (S i)).
  rewrite convergent_succ in *. cbn [fst snd] in *.
  destruct (convergent i) as [r s]. cbn [fst snd] in *.
  destruct (reachable_pos r s Hreach) as [Hr Hs].
  pose proof (reachable_pell r s Hreach) as Hp.
  destruct (reachable_pos _ _ Hreach') as [Hr' Hs'].
  pose proof (reachable_pell _ _ Hreach') as Hp'.
  pose proof (total_of_next r s Hr Hs Hp) as H1.
  pose proof (hypotenuse_next r s Hr Hs Hp) as H2.
  pose proof (total_of_next _ _ Hr' Hs' Hp') as H3.
  unfold next in *. lia.
Qed.

Lemma first_exit_at_candidate k : first_exit (candidate k) (S k).
Proof.
  split; [apply candidate_lt_succ|].
  intros j Hj. apply candidate_le. lia.
Qed.

(** ** The outcome of a call, by its bound *)

(** The candidate total of iteration 200, the last one whose radicand
    still converts to a float (about [4.5 * 10^153]). *)
Definition overflow_bound : Z :=
  4534623139472367146552242809439022449254197603392143828015407380336017065640696586157867426705295870322362447161013326870030116461387983831904490060145140.

(** The float result of a state against its exact blue count
    [(1 + c) / 2]: within one part in [2^52]. *)
Definition blue_error_ok (st : Z * Z) : bool :=
  match result_of st with
  | Return (_, x) =>
      let y := (1 + hypotenuse st) / 2 in
      2 ^ 52 * Z.abs (x - y) <=? y
  | Raise _ => false
  end.

Lemma candidate_200_eq : candidate 200 = overflow_bound.
Proof. vm_compute. reflexivity. Qed.

Lemma first_exit_before_overflow b i :
  first_exit b i -> ((i < overflow_from)%nat <-> b < overflow_bound).
Proof.
  intros [Hgt Hbelow]. rewrite <- candidate_200_eq.
  unfold overflow_from. split.
  - intros Hi. assert (Hle : (i <= 200)%nat) by lia.
    pose proof (candidate_le _ _ Hle). lia.
  - intros Hb. destruct (Nat.lt_ge_cases i 201) as [Hlt|Hge]; [assumption|].
    assert (H : candidate 200 <= b) by (apply Hbelow; lia). lia.
Qed.

Lemma main_returns_inv b t x :
  0 < b -> main (VInt b) = Some (Return (t, x)) ->
  exists i, first_exit b i /\ (i < overflow_from)%nat /\
            result_of (convergent i) = Return (t, x) /\ t = candidate i.
Proof.
  intros Hb Hret. destruct (first_exit_exists b) as [i [_ Hex]].
  rewrite (main_first_exit b i Hb Hex) in Hret. injection Hret as Hret.
  exists i. split; [assumption|]. split; [|split; [assumption|]].
  - destruct (Nat.lt_ge_cases i overflow_from) as [Hlt|Hge]; [assumption|].
    rewrite (result_of_overflow i Hge) in Hret. discriminate.
  - now apply result_of_total in Hret.
Qed.

(** X2. A positive [int] bound below [overflow_bound] (the candidate
    total of iteration 200, about [4.5 * 10^153]) makes the call return
    a pair; from that bound on the call raises [OverflowError]. *)
Theorem main_outcome_by_bound b :
  0 < b ->
  (b < overflow_bound ->
     exists t x, main (VInt b) = Some (Return (t, x))) /\
  (overflow_bound <= b -> main (VInt b) = Some (Raise OverflowError)).
Proof.
  intros Hb. destruct (first_exit_exists b) as [i [_ Hex]].
  rewrite (main_first_exit b i Hb Hex).
  pose proof (first_exit_before_overflow b i Hex) as Hiff. split.
  - intros Hlt. apply Hiff in Hlt.
    destruct (result_returns i Hlt) as [t [x Hres]].
    exists t, x. now rewrite Hres.
  - intros Hge. rewrite result_of_overflow; [reflexivity|].
    destruct (Nat.lt_ge_cases i overflow_from) as [Hlt|Hi]; [|assumption].
    apply Hiff in Hlt. lia.
Qed.

Lemma main_outcome_by_bound_witness :
  0 < 10 ^ 200 /\ overflow_bound <= 10 ^ 200 /\
  main (VInt (10 ^ 200)) = Some (Raise OverflowError).
Proof.
  assert (H : 0 < 10 ^ 200) by (apply Z.ltb_lt; vm_compute; reflexivity).
  assert (H' : overflow_bound <= 10 ^ 200)
    by (apply Z.leb_le; vm_compute; reflexivity).
  split; [exact H|]. split; [exact H'|].
  exact (proj2 (main_outcome_by_bound (10 ^ 200) H) H').
Defined.

(** X3. Whatever the argument, a call that raises raises
    [AssertionError] or [OverflowError]: the square root is never taken
    of a negative number and the division is never by zero. *)
Theorem main_raises_only v e :
  main v = Some (Raise e) -> e = AssertionError \/ e = OverflowError.
Proof.
  intros Hraise.
  destruct (main_cases v) as [[_ Hmain]|[b [i [_ [_ [_ Hmain]]]]]];
    rewrite Hmain in Hraise; injection Hraise as Hraise.
  - left. congruence.
  - right. destruct (Nat.lt_ge_cases i overflow_from) as [Hlt|Hge].
    + destruct (result_returns i Hlt) as [t [x Hres]]. congruence.
    + rewrite (result_of_overflow i Hge) in Hraise. congruence.
Qed.

Lemma main_raises_only_witness :
  main (VInt 0) = Some (Raise AssertionError) /\
  (AssertionError = AssertionError \/ AssertionError = OverflowError).
Proof.
  split; [reflexivity|].
  exact (main_raises_only (VInt 0) AssertionError eq_refl).
Defined.

Lemma blue_errors_ok :
  forallb (fun i => blue_error_ok (convergent i)) (seq 0 overflow_from) = true.
Proof. vm_compute. reflexivity. Qed.

(** X5. The total of a returned pair is always the total of an
    arrangement: some [y] with [0 < y < total] satisfies
    [2*y*(y-1) = total*(total-1)], and the blue count returned differs
    from that [y] by at most [y / 2^52]. *)
Theorem main_blue_error b t x :
  0 < b -> main (VInt b) = Some (Return (t, x)) ->
  exists y, valid_arrangement t y /\ 0 < y < t /\
            2 ^ 52 * Z.abs (x - y) <= y.
Proof.
  intros Hb Hret.
  destruct (main_returns_inv b t x Hb Hret) as [i [_ [Hi [Hres Ht]]]].
  pose proof blue_errors_ok as Hall. rewrite forallb_forall in Hall.
  assert (Hin : In i (seq 0 overflow_from)) by (apply in_seq; lia).
  apply Hall in Hin. unfold blue_error_ok in Hin. rewrite Hres in Hin.
  cbv zeta in Hin. apply Z.leb_le in Hin.
  pose proof (reachable_convergent i) as Hreach. unfold candidate in Ht.
  destruct (convergent i) as [r s]. cbn [fst snd] in Hreach.
  destruct (reachable_pos r s Hreach) as [Hr Hs].
  pose proof (reachable_pell r s Hreach) as Hp.
  pose proof (hypotenuse_square r s Hr Hs Hp) as Hsq.
  pose proof (total_of_ge_4 r s Hr Hs) as H4.
  pose proof (hypotenuse_odd r s Hreach) as Hodd.
  assert (Hz : 0 < hypotenuse (r, s)) by (rewrite hypotenuse_eq; nia).
  rewrite <- Ht in Hsq, H4. clear Ht Hres Hall Hret.
  apply Z.odd_spec in Hodd. destruct Hodd as [k Hk].
  set (z := hypotenuse (r, s)) in *.
  assert (Hy : (1 + z) / 2 = k + 1).
  { rewrite Hk. replace (1 + (2 * k + 1)) with ((k + 1) * 2) by ring.
    apply Z.div_mul. lia. }
  rewrite Hy in Hin. exists (k + 1).
  unfold valid_arrangement. clearbody z. subst z.
  split; [nia|]. split; [nia|assumption].
Qed.

Lemma main_blue_error_witness :
  0 < 2 * 10 ^ 15 /\
  main (VInt (2 * 10 ^ 15)) =
    Some (Return (7199369738058940, 5090723162050696)) /\
  exists y, valid_arrangement 7199369738058940 y /\
            0 < y < 7199369738058940 /\
            2 ^ 52 * Z.abs (5090723162050696 - y) <= y.
Proof.
  assert (H : 0 < 2 * 10 ^ 15) by (apply Z.ltb_lt; vm_compute; reflexivity).
  assert (Hm : main (VInt (2 * 10 ^ 15)) =
               Some (Return (7199369738058940, 5090723162050696)))
    by (vm_compute; reflexivity).
  split; [exact H|]. split; [exact Hm|].
  exact (main_blue_error _ _ _ H Hm).
Defined.

(** X6. A returned total is less than six times the bound. *)
Theorem main_total_below_6b b t x :
  0 < b -> main (VInt b) = Some (Return (t, x)) -> b < t < 6 * b.
Proof.
  intros Hb Hret.
  destruct (main_returns_inv b t x Hb Hret) as [i [[Hgt Hbelow] [_ [_ Ht]]]].
  split; [lia|]. destruct i as [|j].
  - change (candidate 0) with 4 in Ht. lia.
  - assert (Hj : candidate j <= b) by (apply Hbelow; lia).
    pose proof (candidate_growth j). lia.
Qed.

Lemma main_total_below_6b_witness :
  0 < 21 /\ main (VInt 21) = Some (Return (120, 85)) /\ 21 < 120 < 6 * 21.
Proof.
  assert (Hm : main (VInt 21) = Some (Return (120, 85)))
    by (vm_compute; reflexivity).
  split; [lia|]. split; [exact Hm|].
  exact (main_total_below_6b 21 120 85 ltac:(lia) Hm).
Defined.

(** X12. The result is constant up to the total it names: if the bound
    [b] gets the pair [(t, x)], so does every bound from [b] up to
    [t - 1]. *)
Theorem main_stable_below_total b b' t x :
  0 < b -> b <= b' < t ->
  main (VInt b) = Some (Return (t, x)) ->
  main (VInt b') = Some (Return (t, x)).
Proof.
  intros Hb Hb' Hret.
  destruct (main_returns_inv b t x Hb Hret) as [i [[Hgt Hbelow] [_ [Hres Ht]]]].
  rewrite (main_first_exit b' i); [now rewrite Hres|lia|].
  split; [lia|]. intros j Hj. specialize (Hbelow j Hj). lia.
Qed.

Lemma main_stable_below_total_witness :
  0 < 21 /\ 21 <= 100 < 120 /\
  main (VInt 21) = Some (Return (120, 85)) /\
  main (VInt 100) = Some (Return (120, 85)).
Proof.
  assert (Hm : main (VInt 21) = Some (Return (120, 85)))
    by (vm_compute; reflexivity).
  split; [lia|]. split; [lia|]. split; [exact Hm|].
  exact (main_stable_below_total 21 100 120 85 ltac:(lia) ltac:(lia) Hm).
Defined.

(** X13. The returned total grows with the bound: a greater bound never
    gets a smaller total. *)
Theorem main_total_monotone b b' t x t' x' :
  0 < b -> b <= b' ->
  main (VInt b) = Some (Return (t, x)) ->
  main (VInt b') = Some (Return (t', x')) ->
  t <= t'.
Proof.
  intros Hb Hle Hret Hret'.
  destruct (main_returns_inv b t x Hb Hret) as [i [[Hgt Hbelow] [_ [_ Ht]]]].
  destruct (main_returns_inv b' t' x' ltac:(lia) Hret')
    as [i' [[Hgt' Hbelow'] [_ [_ Ht']]]].
  subst t t'. apply candidate_le.
  destruct (Nat.le_gt_cases i i') as [Hii|Hii]; [assumption|].
  specialize (Hbelow i' Hii). lia.
Qed.

Lemma main_total_monotone_witness :
  0 < 4 /\ 4 <= 21 /\
  main (VInt 4) = Some (Return (21, 15)) /\
  main (VInt 21) = Some (Return (120, 85)) /\ 21 <= 120.
Proof.
  assert (H4 : main (VInt 4) = Some (Return (21, 15)))
    by (vm_compute; reflexivity).
  assert (H21 : main (VInt 21) = Some (Return (120, 85)))
    by (vm_compute; reflexivity).
  split; [lia|]. split; [lia|]. split; [exact H4|]. split; [exact H21|].
  exact (main_total_monotone 4 21 21 15 120 85 ltac:(lia) ltac:(lia) H4 H21).
Defined.

Lemma main_valid_iff_witness :
  0 < 21 /\
  ((exists t x, main (VInt 21) = Some (Return (t, x)) /\
                valid_arrangement t x)
   <-> 21 < 1235216565974041).
Proof. split; [lia|exact (main_valid_iff 21 ltac:(lia))]. Defined.

(** X14. Feeding a returned total back in walks the arrangements: if
    the bound [b] gets the total [t] and the bound [t] gets [t'], then
    [5*t - 1 <= t' <= 6*t - 1], and a total [t''] returned for the bound
    [t'] is [6*t' - t - 2]. *)
Theorem main_chained b t x t' x' :
  0 < b ->
  main (VInt b) = Some (Return (t, x)) ->
  main (VInt t) = Some (Return (t', x')) ->
  5 * t - 1 <= t' <= 6 * t - 1 /\
  forall t'' x'', main (VInt t') = Some (Return (t'', x'')) ->
                  t'' = 6 * t' - t - 2.
Proof.
  intros Hb Hret Hret'.
  destruct (main_returns_inv b t x Hb Hret) as [i [_ [_ [_ Ht]]]].
  pose proof (candidate_ge_4 i) as H4.
  pose proof (candidate_growth i) as Hgrow.
  destruct (main_returns_inv t t' x' ltac:(lia) Hret')
    as [i' [Hex' [_ [_ Ht']]]].
  rewrite Ht in Hex'.
  rewrite (first_exit_unique _ _ _ Hex' (first_exit_at_candidate i)) in Ht'.
  split; [lia|]. intros t'' x'' Hret''.
  destruct (main_returns_inv t' t'' x'' ltac:(lia) Hret'')
    as [i'' [Hex'' [_ [_ Ht'']]]].
  rewrite Ht' in Hex''.
  rewrite (first_exit_unique _ _ _ Hex'' (first_exit_at_candidate (S i)))
    in Ht''.
  pose proof (candidate_recurrence i). lia.
Qed.

Lemma main_chained_witness :
  0 < 4 /\
  main (VInt 4) = Some (Return (21, 15)) /\
  main (VInt 21) = Some (Return (120, 85)) /\
  5 * 21 - 1 <= 120 <= 6 * 21 - 1 /\
  (main (VInt 120) = Some (Return (697, 493)) -> 697 = 6 * 120 - 21 - 2).
Proof.
  assert (H4 : main (VInt 4) = Some (Return (21, 15)))
    by (vm_compute; reflexivity).
  assert (H21 : main (VInt 21) = Some (Return (120, 85)))
    by (vm_compute; reflexivity).
  split; [lia|]. split; [exact H4|]. split; [exact H21|].
  destruct (main_chained 4 21 15 120 85 ltac:(lia) H4 H21) as [Hr Hn].
  split; [exact Hr|exact (Hn 697 493)].
Defined.


(** * The call inside its program: what it reads and what it changes *)

(** Everything a statement of [main.py] can observe or change besides
    its own local variables: the variables of the module, what is left
    to read on standard input, and what has been written to standard
    output.  The functions named in [main] ([type], [int], [sqrt],
    [max]) are taken as the library functions they are bound to when
    the module is loaded; the program never rebinds them. *)
Record World : Type := mkWorld {
  globals : list (string * value);
  stdin : list string;
  stdout : string
}.

(** A piece of program run in a world: [None] when the iterations
    granted are used up, else how it ends and the world it leaves. *)
Definition Prog (A : Type) : Type := World -> option (outcome A * World).

Definition retP {A : Type} (a : A) : Prog A :=
  fun w => Some (Return a, w).

Definition raiseP {A : Type} (e : exc) : Prog A :=
  fun w => Some (Raise e, w).

Definition bindP {A B : Type} (m : Prog A) (k : A -> Prog B) : Prog B :=
  fun w =>
    match m w with
    | None => None
    | Some (Raise e, w') => Some (Raise e, w')
    | Some (Return a, w') => k a w'
    end.

(** An expression over local values only: it may raise, and touches
    nothing. *)
Definition evalP {A : Type} (o : outcome A) : Prog A :=
  fun w => Some (o, w).

(** [name = v] at module level. *)
Definition set_global (name : string) (v : value) : Prog unit :=
  fun w => Some (Return tt, mkWorld ((name, v) :: globals w) (stdin w) (stdout w)).

(** [print(text)] *)
Definition print (text : string) : Prog unit :=
  fun w =>
    Some (Return tt,
          mkWorld (globals w) (stdin w)
                  (String.append (stdout w)
                     (String.append text (String "010"%char EmptyString)))).

(** [input(prompt)]: the prompt is written, then a line is read. *)
Definition input (prompt : string) : Prog string :=
  fun w =>
    let out := String.append (stdout w) prompt in
    match stdin w with
    | [] => Some (Raise EOFError, mkWorld (globals w) [] out)
    | line :: rest => Some (Return line, mkWorld (globals w) rest out)
    end.

Notation "x <-- m ;;; k" := (bindP m (fun x => k))
  (at level 61, m at next level, right associativity).

(** The body of [main], statement by statement, as a piece of program.
    [r], [s], [p], [q], [a], [b], [n] and [x] are assigned in the body
    and so are local to the call. *)
Fixpoint main_st_loop (fuel : nat) (n_min r s : Z) : Prog (Z * Z) :=
  match fuel with
  | O => fun _ => None
  | S fuel' =>
      let p := r + s in
      let q := s in
      let a := (p - q) * (p + q) in
      let b := 2 * p * q in
      let n := Z.max a b in
      if n >? n_min then
        x <-- evalP (blue_count a b) ;;;
        retP (n, x)
      else
        main_st_loop fuel' n_min (r + 2 * s) (r + s)
  end.

Definition main_st (v : value) : Prog (Z * Z) :=
  match v with
  | VInt n_min =>
      if n_min >? 0 then main_st_loop (main_fuel n_min) n_min 1 1
      else raiseP AssertionError
  | _ => raiseP AssertionError
  end.

(** ['{}'.format(i)] for an [int]. *)
Definition str_of_int (i : Z) : string := NilZero.string_of_int (Z.to_int i).

Section Script.

(** [int(text)] for a [str], with [ValueError] for what is no numeral. *)
Variable int_of_str : string -> outcome Z.

(** The statements under [if __name__ == '__main__']. *)
Definition script : Prog unit :=
  line <-- input "Enter a natural number: " ;;;
  disc_lower_bound <-- evalP (int_of_str line) ;;;
  _ <-- set_global "disc_lower_bound" (VInt disc_lower_bound) ;;;
  result <-- main_st (VInt disc_lower_bound) ;;;
  _ <-- set_global "total_disc_count" (VInt (fst result)) ;;;
  _ <-- set_global "blue_disc_count" (VInt (snd result)) ;;;
  _ <-- print (String.append "First arrangement (of > "
                (String.append (str_of_int disc_lower_bound)
                   " discs) s.t. probability of two blues is exactly 1/2:")) ;;;
  _ <-- print (String.append "  Total = " (str_of_int (fst result))) ;;;
  print (String.append "  Blue  = " (str_of_int (snd result))).

End Script.

Lemma main_st_loop_main_loop fuel :
  forall n_min r s w,
    main_st_loop fuel n_min r s w =
    match main_loop fuel n_min r s with
    | Some o => Some (o, w)
    | None => None
    end.
Proof.
  induction fuel as [|fuel IH]; intros n_min r s w; [reflexivity|].
  cbn [main_st_loop main_loop].
  destruct (Z.max ((r + s - s) * (r + s + s)) (2 * (r + s) * s) >? n_min).
  - unfold bindP, evalP, retP.
    destruct (blue_count _ _) as [x|e]; reflexivity.
  - apply IH.
Qed.

Lemma main_st_main v w :
  main_st v w =
  match main v with
  | Some o => Some (o, w)
  | None => None
  end.
Proof.
  destruct v as [z| | | |]; try reflexivity.
  unfold main_st, main. destruct (z >? 0); [|reflexivity].
  apply main_st_loop_main_loop.
Qed.

Lemma main_ends v : exists o, main v = Some o.
Proof.
  destruct (main_cases v) as [[_ H]|[b [i [_ [_ [_ H]]]]]];
    rewrite H; eexists; reflexivity.
Qed.


(** The world does matter to the rest of the program: the script
    writes its prompt before anything else, and a call of [main] made
    after the script has run ends as one made before it. *)
Lemma script_writes int_of_str w :
  exists o w', script int_of_str w = Some (o, w') /\
               stdout w' <> stdout w.
Proof.
  assert (Hlen : forall a b, String.length (String.append a b) =
                             (String.length a + String.length b)%nat).
  { induction a as [|c a IH]; intros b; cbn; [reflexivity|now rewrite IH]. }
  assert (Hgrow : forall a b, String.length b <> 0%nat ->
                              String.append a b <> a).
  { intros a b Hb Heq. apply (f_equal String.length) in Heq.
    rewrite Hlen in Heq. lia. }
  assert (Hprint : forall t w0 u,
            print t w0 = Some (Return u, mkWorld (globals w0) (stdin w0)
              (String.append (stdout w0)
                 (String.append t (String "010"%char EmptyString))))).
  { intros t w0 []. reflexivity. }
  unfold script, bindP at 1, input.
  destruct (stdin w) as [|line rest].
  - eexists; eexists; split; [reflexivity|]. cbn [stdout].
    apply Hgrow. cbn. lia.
  - set (w0 := mkWorld (globals w) rest
                 (String.append (stdout w) "Enter a natural number: ")).
    assert (Hw0 : (String.length (stdout w) < String.length (stdout w0))%nat)
      by (unfold w0; cbn [stdout]; rewrite Hlen; cbn; lia).
    unfold bindP at 1, evalP.
    destruct (int_of_str line) as [n|e].
    + unfold bindP at 1, set_global.
      unfold bindP at 1. rewrite main_st_main.
      destruct (main_ends (VInt n)) as [o Ho]. rewrite Ho.
      destruct o as [[t x]|e].
      * cbn [fst snd]. unfold bindP, set_global, print. cbn [globals stdin stdout].
        eexists; eexists; split; [reflexivity|]. cbn [stdout].
        intros Heq. apply (f_equal String.length) in Heq.
        rewrite !Hlen in Heq. lia.
      * eexists; eexists; split; [reflexivity|]. cbn [stdout].
        intros Heq. apply (f_equal String.length) in Heq. lia.
    + eexists; eexists; split; [reflexivity|].
      intros Heq. apply (f_equal String.length) in Heq. lia.
Qed.
